(** * The local development registry of wrangler (dev-registry)

    A shallow embedding of the worker registry: the HTTP handlers that own
    the in-memory [workers] object, the start/stop lifecycle around the
    process-wide [server] handle, and the client operations
    [registerWorker], [unregisterWorker], [getRegisteredWorkers] and
    [getBoundRegisteredWorkers]. *)

From stdpp Require Import gmap strings list fin_maps sorting.
From Stdlib Require Import ZArith Ascii.

Local Open Scope string_scope.
Local Open Scope nat_scope.

(** ** Data model *)

Inductive Protocol := http | https.
Inductive Mode := local | remote.

Record DurableObject := {
  name : string;
  className : string;
}.

(** [WorkerDefinition]: a field typed [T | undefined] or declared with [?]
    is an [option]; JavaScript numbers that hold ports are integers. *)
Record WorkerDefinition := {
  port : option Z;
  protocol : option Protocol;
  host : option string;
  mode : Mode;
  headers : option (gmap string string);
  durableObjects : list DurableObject;
  durableObjectsHost : option string;
  durableObjectsPort : option Z;
}.

(** [WorkerRegistry = Record<string, WorkerDefinition>] as a client sees it:
    the own enumerable properties of a JSON object. *)
Abbreviation WorkerRegistry := (gmap string WorkerDefinition).

(** ** Plain JavaScript objects used as a map

    [let workers: WorkerRegistry = {}] is an ordinary object whose prototype
    is [Object.prototype].  Its own properties are one thing and its
    [[Prototype]] slot another: [Object.prototype] carries the accessor
    [__proto__], so the assignment [o["__proto__"] = v] with [v] an object
    runs that setter and replaces the prototype; it does not create an own
    property.  Every other key inherited from [Object.prototype] or from a
    JSON-parsed object is a writable data property, and assigning to it
    defines an own property on [o]. *)
Module JsObject.

Inductive Prototype :=
| ObjectPrototype
| ProtoOf (d : WorkerDefinition).

Record t := mk {
  own : gmap string WorkerDefinition;
  proto : Prototype;
}.

(** The object literal [{}]. *)
Definition empty : t := {| own := ∅; proto := ObjectPrototype |}.

(** [o[k] = v]: an existing own data property is overwritten; otherwise the
    key [__proto__] is found on the prototype chain as an accessor whose
    setter changes [[Prototype]]; any other key becomes an own property. *)
Definition set (o : t) (k : string) (v : WorkerDefinition) : t :=
  match own o !! k with
  | Some _ => {| own := <[k := v]> (own o); proto := proto o |}
  | None =>
      if String.eqb k "__proto__"
      then {| own := own o; proto := ProtoOf v |}
      else {| own := <[k := v]> (own o); proto := proto o |}
  end.

(** [delete o[k]] removes an own property and nothing else. *)
Definition del (o : t) (k : string) : t :=
  {| own := delete k (own o); proto := proto o |}.

(** What [JSON.stringify(o)] carries and [JSON.parse] gives back: the own
    enumerable properties. *)
Definition toJSON (o : t) : gmap string WorkerDefinition := own o.

End JsObject.

(** ** Errors, results and the log *)

Record ErrorCause := {
  cause_code : option string;
}.

(** A thrown value: [code] is what [net] sets on a socket error, [cause] is
    what [fetch] attaches to its [TypeError]. *)
Record JsError := {
  code : option string;
  cause : option ErrorCause;
}.

Inductive Result (A : Type) :=
| Return (a : A)
| Throw (e : JsError).
Arguments Return {A} a.
Arguments Throw {A} e.

Definition bind {A B} (r : Result A) (k : A → Result B) : Result B :=
  match r with
  | Return a => k a
  | Throw e => Throw e
  end.

Inductive LogLevel := error | debug.

Record LogEntry := {
  level : LogLevel;
  message : string;
  detail : JsError;
}.

(** ** Registry server: the four endpoint handlers *)

Inductive Request :=
| GET_workers
| POST_worker (workerId : string) (body : WorkerDefinition)
| DELETE_worker (workerId : string)
| DELETE_workers.

Inductive Response :=
| json_workers (ws : WorkerRegistry)
| json_null.

(** One request against the [workers] variable of the app: the new value of
    [workers] and the response sent. *)
Definition handle (workers : JsObject.t) (req : Request) : JsObject.t * Response :=
  match req with
  | GET_workers => (workers, json_workers (JsObject.toJSON workers))
  | POST_worker workerId body => (JsObject.set workers workerId body, json_null)
  | DELETE_worker workerId => (JsObject.del workers workerId, json_null)
  | DELETE_workers => (JsObject.empty, json_null)
  end.

(** The registry as the rest of the system observes it: the body of
    [GET /workers]. *)
Definition registry (workers : JsObject.t) : WorkerRegistry :=
  match snd (handle workers GET_workers) with
  | json_workers ws => ws
  | json_null => ∅
  end.

Definition upsert (workers : JsObject.t) (n : string) (d : WorkerDefinition) : JsObject.t :=
  fst (handle workers (POST_worker n d)).

Definition clear (workers : JsObject.t) : JsObject.t :=
  fst (handle workers DELETE_workers).

(** The [workers] variable after a run of requests, the first served first. *)
Definition handle_all (workers : JsObject.t) (reqs : list Request) : JsObject.t :=
  foldl (λ ws req, fst (handle ws req)) workers reqs.

(** ** Start-up, port arbitration and shutdown *)

(** What a listener reports after [listen(DEV_REGISTRY_PORT, "127.0.0.1")]:
    the ['listening'] event or the ['error'] event with its error. *)
Inductive NetEvent :=
| listening_event
| error_event (err : JsError).

Definition has_code (err : JsError) (c : string) : bool :=
  match code err with
  | Some c' => String.eqb c' c
  | None => false
  end.

(** The promise of [isPortAvailable], given what the probing listener
    reported. *)
Definition isPortAvailable (probe : NetEvent) : Result bool :=
  match probe with
  | error_event err =>
      if has_code err "EADDRINUSE" then Return false else Throw err
  | listening_event => Return true
  end.

Definition ServerId := nat.

(** The module-level state of one wrangler process.  [server] and
    [terminator] are the two [let] variables; [apps] holds the [workers]
    variable captured by the handlers of every server this process created;
    [live] lists the created servers whose socket is bound; [uncaught]
    collects what the ['error'] listener of a server re-threw. *)
Record Process := {
  server : option ServerId;
  terminator : option ServerId;
  apps : gmap ServerId JsObject.t;
  live : list ServerId;
  created : ServerId;
  uncaught : list JsError;
  log : list LogEntry;
}.

Definition initial : Process := {|
  server := None;
  terminator := None;
  apps := ∅;
  live := [];
  created := 0;
  uncaught := [];
  log := [];
|}.

Definition is_null (h : option ServerId) : bool :=
  match h with
  | Some _ => false
  | None => true
  end.

(** [startWorkerRegistry]: [probe] is the report of the probing listener,
    [bound] the report of [server.listen] should a server be created. *)
Definition startWorkerRegistry (probe bound : NetEvent) (p : Process)
  : Result unit * Process :=
  match isPortAvailable probe with
  | Throw err => (Throw err, p)
  | Return available =>
      if available && is_null (server p) then
        let sid := created p in
        (Return (),
         {| server := Some sid;
            terminator := Some sid;
            apps := <[sid := JsObject.empty]> (apps p);
            live := match bound with
                    | listening_event => sid :: live p
                    | error_event _ => live p
                    end;
            created := S sid;
            uncaught := match bound with
                        | listening_event => uncaught p
                        | error_event err =>
                            if has_code err "EADDRINUSE" then uncaught p
                            else err :: uncaught p
                        end;
            log := log p |})
      else (Return (), p)
  end.

Definition unbind (sid : ServerId) (l : list ServerId) : list ServerId :=
  filter (λ s, s ≠ sid) l.

(** The ['close'] event of server [sid]: its socket is gone and the listener
    installed by [startWorkerRegistry] runs [server = null]. *)
Definition on_close (sid : ServerId) (p : Process) : Process :=
  {| server := None;
     terminator := terminator p;
     apps := apps p;
     live := unbind sid (live p);
     created := created p;
     uncaught := uncaught p;
     log := log p |}.

(** [stopWorkerRegistry]: [terminator?.terminate()] closes the server the
    terminator was made for, then [server = null]. *)
Definition stopWorkerRegistry (p : Process) : Process :=
  let p' := match terminator p with
            | Some sid => on_close sid p
            | None => p
            end in
  {| server := None;
     terminator := terminator p';
     apps := apps p';
     live := live p';
     created := created p';
     uncaught := uncaught p';
     log := log p' |}.

(** A request that reaches this process is served by its bound server. *)
Definition serve (req : Request) (p : Process) : Process :=
  match live p with
  | sid :: _ =>
      match apps p !! sid with
      | Some workers =>
          {| server := server p;
             terminator := terminator p;
             apps := <[sid := fst (handle workers req)]> (apps p);
             live := live p;
             created := created p;
             uncaught := uncaught p;
             log := log p |}
      | None => p
      end
  | [] => p
  end.

Inductive Event :=
| call_start (probe bound : NetEvent)
| call_stop
| socket_close (sid : ServerId)
| request (req : Request).

Definition step (p : Process) (ev : Event) : Process :=
  match ev with
  | call_start probe bound => snd (startWorkerRegistry probe bound p)
  | call_stop => stopWorkerRegistry p
  | socket_close sid => on_close sid p
  | request req => serve req p
  end.

(** TCP bind semantics, the one thing assumed of the environment: a listener
    reports ['listening'] on the fixed port only while no server of this
    process holds it.  A server is created and bound in the same turn as the
    probe is read, so the probe is the only report to constrain. *)
Definition binds_exclusively (p : Process) (ev : NetEvent) : bool :=
  match ev with
  | listening_event => match live p with [] => true | _ :: _ => false end
  | error_event _ => true
  end.

Definition admissible (p : Process) (ev : Event) : bool :=
  match ev with
  | call_start probe _ => binds_exclusively p probe
  | _ => true
  end.

(** The states a process goes through, the last first, or [None] when some
    event contradicts the bind semantics. *)
Fixpoint history (p : Process) (evs : list Event) : option (list Process) :=
  match evs with
  | [] => Some [p]
  | ev :: evs' =>
      if admissible p ev
      then option_map (cons p) (history (step p ev) evs')
      else None
  end.

(** ** Registry client *)

Definition DEV_REGISTRY_PORT : string := "6284".
Definition DEV_REGISTRY_HOST : string := "http://127.0.0.1:" ++ DEV_REGISTRY_PORT.

(** The second argument of [fetch]; the body is the definition that
    [JSON.stringify] serialises. *)
Record RequestInit := {
  method : string;
  content_type : option string;
  body : option WorkerDefinition;
}.

Definition GET : RequestInit :=
  {| method := "GET"; content_type := None; body := None |}.

Definition POST (definition : WorkerDefinition) : RequestInit :=
  {| method := "POST";
     content_type := Some "application/json";
     body := Some definition |}.

Definition DELETE : RequestInit :=
  {| method := "DELETE"; content_type := None; body := None |}.

Definition workers_url : string := DEV_REGISTRY_HOST ++ "/workers".

Definition worker_url (name : string) : string :=
  DEV_REGISTRY_HOST ++ "/workers/" ++ name.

(** What the client reads of a response: its status and what
    [response.json()] gives, which may itself throw. *)
Record HttpResponse := {
  status : Z;
  json : Result WorkerRegistry;
}.

(** Modelled from the spec: the binding declarations of [Config] (declared
    in ./config, used here only through [service], [bindings] and
    [script_name]): a service binding names its target service, a
    durable-object binding may name the script that hosts its class. *)
Module Config.

Record ServiceBinding := {
  binding : string;
  service : string;
  environment : option string;
}.

Record DurableObjectBinding := {
  name : string;
  class_name : string;
  script_name : option string;
}.

Record DurableObjects := {
  bindings : list DurableObjectBinding;
}.

End Config.

(** [Array.prototype.includes]. *)
Definition includes {A : Type} `{EqDecision A} (l : list A) (x : A) : bool :=
  bool_decide (x ∈ l).

(** [(e).cause?.code || "___"]: an absent cause, an absent code and the
    empty string all give the default. *)
Definition cause_code_or_default (e : JsError) : string :=
  match cause e with
  | Some c =>
      match cause_code c with
      | Some s => if String.eqb s "" then "___" else s
      | None => "___"
      end
  | None => "___"
  end.

Definition connection_lost (e : JsError) : bool :=
  includes ["ECONNRESET"; "ECONNREFUSED"] (cause_code_or_default e).

Definition logger (l : LogLevel) (msg : string) (e : JsError) (p : Process) : Process :=
  {| server := server p;
     terminator := terminator p;
     apps := apps p;
     live := live p;
     created := created p;
     uncaught := uncaught p;
     log := log p ++ [{| level := l; message := msg; detail := e |}] |}.

Section Client.

(** The network as the client meets it: [await fetch(url, init)] gives a
    response or throws. *)
Variable fetch : string → RequestInit → Result HttpResponse.

Definition registerWorker (name : string) (definition : WorkerDefinition)
    (probe bound : NetEvent) (p : Process)
  : Result (option HttpResponse) * Process :=
  match startWorkerRegistry probe bound p with
  | (Throw e, p') => (Throw e, p')
  | (Return _, p') =>
      match fetch (worker_url name) (POST definition) with
      | Return response => (Return (Some response), p')
      | Throw e =>
          if negb (connection_lost e)
          then (Return None,
                logger error "Failed to register worker in local service registry" e p')
          else (Return None,
                logger debug "Failed to register worker in local service registry" e p')
      end
  end.

Definition unregisterWorker (name : string) : Result unit :=
  match fetch (worker_url name) DELETE with
  | Return _ => Return ()
  | Throw e => if negb (connection_lost e) then Throw e else Return ()
  end.

Definition getRegisteredWorkers : Result (option WorkerRegistry) :=
  match bind (fetch workers_url GET) json with
  | Return ws => Return (Some ws)
  | Throw e => if negb (connection_lost e) then Throw e else Return None
  end.

Definition getBoundRegisteredWorkers
    (services : option (list Config.ServiceBinding))
    (durableObjects : option Config.DurableObjects)
  : Result WorkerRegistry :=
  let serviceNames := Config.service <$> default [] services in
  let durableObjectServices :=
    Config.script_name <$>
      Config.bindings (default {| Config.bindings := [] |} durableObjects) in
  bind getRegisteredWorkers (λ workerDefinitions,
    Return
      (list_to_map
         (filter
            (λ kv, includes serviceNames kv.1
                   || includes durableObjectServices (Some kv.1))
            (map_to_list (default ∅ workerDefinitions))))).

End Client.

Definition ok (ws : WorkerRegistry) : HttpResponse :=
  {| status := 200; json := Return ws |}.

(** A network on which [GET /workers] reaches a registry server whose
    [workers] variable is [ws]. *)
Definition reaches (fetch : string → RequestInit → Result HttpResponse)
    (ws : JsObject.t) : Prop :=
  fetch workers_url GET = Return (ok (registry ws)).

(** A network on which every request fails with [e], and one on which every
    request is answered with [r]. *)
Definition failing (e : JsError) : string → RequestInit → Result HttpResponse :=
  λ _ _, Throw e.

Definition answering (r : HttpResponse) : string → RequestInit → Result HttpResponse :=
  λ _ _, Return r.

(** ** Vocabulary of the statements *)

Definition at_most_one_live (p : Process) : Prop :=
  length (live p) ≤ 1.

(** Server ids are handed out in order: no app exists yet under the next id
    or a later one. *)
Definition ids_fresh (p : Process) : Prop :=
  ∀ sid, created p ≤ sid → apps p !! sid = None.

(** The registry held by the server of this process that is bound to the
    port, if there is one. *)
Definition served_registry (p : Process) : option WorkerRegistry :=
  match live p with
  | sid :: _ => registry <$> apps p !! sid
  | [] => None
  end.

Definition failure_message : string :=
  "Failed to register worker in local service registry".

(** The cause code of a thrown value, [e.cause?.code]. *)
Definition cause_code_of (e : JsError) : option string :=
  cause e ≫= cause_code.

Definition reset_or_refused (e : JsError) : Prop :=
  cause_code_of e = Some "ECONNRESET" ∨ cause_code_of e = Some "ECONNREFUSED".

(** A name some declared binding points at: the target of a service binding
    or the script name of a durable-object binding. *)
Definition declared (services : option (list Config.ServiceBinding))
    (durableObjects : option Config.DurableObjects) (k : string) : Prop :=
  (∃ s, s ∈ default [] services ∧ Config.service s = k)
  ∨ (∃ b, b ∈ Config.bindings (default {| Config.bindings := [] |} durableObjects)
          ∧ Config.script_name b = Some k).

(** ** Sample data *)

Definition worker_a : WorkerDefinition := {|
  port := Some 8787%Z;
  protocol := Some http;
  host := Some "127.0.0.1";
  mode := local;
  headers := None;
  durableObjects := [{| name := "DO1"; className := "Counter" |}];
  durableObjectsHost := None;
  durableObjectsPort := None;
|}.

Definition worker_b : WorkerDefinition := {|
  port := Some 8788%Z;
  protocol := Some http;
  host := Some "127.0.0.1";
  mode := local;
  headers := None;
  durableObjects := [];
  durableObjectsHost := None;
  durableObjectsPort := None;
|}.

Definition fetch_failed (c : string) : JsError :=
  {| code := None; cause := Some {| cause_code := Some c |} |}.

Definition socket_error (c : string) : JsError :=
  {| code := Some c; cause := None |}.

Definition three_workers : WorkerRegistry :=
  {[ "a" := worker_a; "b" := worker_b; "c" := worker_a ]}.

Definition binds_b : list Config.ServiceBinding :=
  [{| Config.binding := "B"; Config.service := "b"; Config.environment := None |}].

Definition binds_c : Config.DurableObjects :=
  {| Config.bindings :=
       [{| Config.name := "COUNTER";
           Config.class_name := "Counter";
           Config.script_name := Some "c" |};
        {| Config.name := "OWN";
           Config.class_name := "Own";
           Config.script_name := None |}] |}.

Definition sample_trace : list Event :=
  [ call_start listening_event listening_event;
    request (POST_worker "worker-a" worker_a);
    call_start (error_event (socket_error "EADDRINUSE")) listening_event;
    socket_close 0;
    call_start listening_event (error_event (socket_error "EADDRINUSE"));
    call_stop;
    call_start listening_event listening_event ].

(** A process whose registry server is up: one successful start. *)
Definition running : Process :=
  snd (startWorkerRegistry listening_event listening_event initial).

(** Every live server of the process is the one the terminator was made
    for. *)
Definition terminator_covers_live (p : Process) : Prop :=
  ∀ sid, sid ∈ live p → terminator p = Some sid.

Definition is_start (ev : Event) : bool :=
  match ev with
  | call_start _ _ => true
  | _ => false
  end.

(** A process that won the probe and lost the bind to another process. *)
Definition lost_race : Process :=
  snd (startWorkerRegistry listening_event
         (error_event (socket_error "EADDRINUSE")) initial).

(** What [response.json()] throws on a body that is not JSON: a
    [SyntaxError], which has neither code nor cause. *)
Definition syntax_error : JsError := {| code := None; cause := None |}.

(** A process whose server holds one registration. *)
Definition registered : Process :=
  step running (request (POST_worker "worker-a" worker_a)).

(** ** Helpers of the project generator: [retry]

    One call of [fn] either resolves or rejects; [fn] may behave differently
    from call to call, so it is given by the outcome of its calls, numbered
    from 0.  The thrown value of [retry] is [None] for the [null] that
    [error] starts as.  [times] is an integer. *)

Inductive Attempt (T E : Type) :=
| resolved (v : T)
| rejected (e : E).
Arguments resolved {T E} v.
Arguments rejected {T E} e.

(** [exitCondition?.(e)], undefined when no condition is given. *)
Definition exits {E : Type} (exitCondition : option (E → bool)) (e : E) : bool :=
  match exitCondition with
  | Some cond => cond e
  | None => false
  end.

(** The [while (times > 0)] loop, [times] being the number of rounds left:
    the outcome, and how many calls of [fn] have been made. *)
Fixpoint retry_loop {T E : Type} (times : nat) (exitCondition : option (E → bool))
    (fn : nat → Attempt T E) (calls : nat) (error : option E)
  : Attempt T (option E) * nat :=
  match times with
  | 0 => (rejected error, calls)
  | S times' =>
      match fn calls with
      | resolved v => (resolved v, S calls)
      | rejected e =>
          if exits exitCondition e
          then (rejected (Some e), S calls)
          else retry_loop times' exitCondition fn (S calls) (Some e)
      end
  end.

Definition retry {T E : Type} (times : Z) (exitCondition : option (E → bool))
    (fn : nat → Attempt T E) : Attempt T (option E) * nat :=
  retry_loop (Z.to_nat times) exitCondition fn 0 None.

(** The first [k] calls of [fn] reject with errors the exit condition lets
    pass. *)
Definition fails_before {T E : Type} (exitCondition : option (E → bool))
    (fn : nat → Attempt T E) (k : nat) : Prop :=
  ∀ j, j < k → ∃ e, fn j = rejected e ∧ exits exitCondition e = false.

(** A function that rejects with its call number twice, then resolves. *)
Definition third_time_lucky (call : nat) : Attempt string nat :=
  if call <? 2 then rejected call else resolved "done".

(** ** Helpers of the project generator: dated entry points and versions

    File names and version strings are strings of code units below 256, on
    which the order of [String.le] is the order of [Array.prototype.sort]
    without a comparator. *)

(** The class [\d]. *)
Definition is_digit (c : ascii) : bool :=
  (48 <=? nat_of_ascii c) && (nat_of_ascii c <=? 57).

Fixpoint all_digits (s : string) : bool :=
  match s with
  | EmptyString => true
  | String c s' => is_digit c && all_digits s'
  end.

(** [\d{n}] at the start of a string: the [n] digits and what follows. *)
Fixpoint take_digits (n : nat) (s : string) : option (string * string) :=
  match n with
  | 0 => Some (EmptyString, s)
  | S n' =>
      match s with
      | String c s' =>
          if is_digit c
          then match take_digits n' s' with
               | Some (ds, rest) => Some (String c ds, rest)
               | None => None
               end
          else None
      | EmptyString => None
      end
  end.

(** One given character at the start of a string: what follows it. *)
Definition take_char (c : ascii) (s : string) : option string :=
  match s with
  | String c' s' => if Ascii.eqb c' c then Some s' else None
  | EmptyString => None
  end.

(** [/(\d{4})-(\d{2})-(\d{2})/] matched at the start of a string. *)
Definition date_here (s : string) : bool :=
  match take_digits 4 s with
  | Some (_, s1) =>
      match take_char "-"%char s1 with
      | Some s2 =>
          match take_digits 2 s2 with
          | Some (_, s3) =>
              match take_char "-"%char s3 with
              | Some s4 =>
                  match take_digits 2 s4 with
                  | Some _ => true
                  | None => false
                  end
              | None => false
              end
          | None => false
          end
      | None => false
      end
  | None => false
  end.

(** [filename.match(/(\d{4})-(\d{2})-(\d{2})/)] is not null: the pattern
    matches at some position. *)
Fixpoint contains_date (s : string) : bool :=
  date_here s
  || match s with
     | String _ s' => contains_date s'
     | EmptyString => false
     end.

(** [getLatestTypesEntrypoint], given what [readdirSync] returns or throws
    on the directory of the installed types. *)
Definition getLatestTypesEntrypoint (readdirSync : Result (list string))
  : option string :=
  match readdirSync with
  | Return entrypoints =>
      let sorted :=
        reverse (merge_sort String.le
                   (filter (λ filename, contains_date filename) entrypoints)) in
      match sorted with
      | [] => None
      | latest :: _ => Some latest
      end
  | Throw _ => None
  end.

(** [\d+] at the start of a string, as it takes part in a match that goes
    on with a character that is no digit: the longest run of digits, which
    must not be empty, and what follows it. *)
Fixpoint digit_run (s : string) : string * string :=
  match s with
  | String c s' =>
      if is_digit c
      then let (run, rest) := digit_run s' in (String c run, rest)
      else (EmptyString, s)
  | EmptyString => (EmptyString, EmptyString)
  end.

(** [/\d+\.(\d{4})(\d{2})(\d{2})\.\d+/] matched at the start of a string:
    the three groups. *)
Definition version_here (s : string) : option (string * string * string) :=
  match digit_run s with
  | (EmptyString, _) => None
  | (String _ _, s0) =>
      match take_char "."%char s0 with
      | Some s1 =>
          match take_digits 4 s1 with
          | Some (year, s2) =>
              match take_digits 2 s2 with
              | Some (month, s3) =>
                  match take_digits 2 s3 with
                  | Some (date, s4) =>
                      match take_char "."%char s4 with
                      | Some s5 =>
                          match take_digits 1 s5 with
                          | Some _ => Some (year, month, date)
                          | None => None
                          end
                      | None => None
                      end
                  | None => None
                  end
              | None => None
              end
          | None => None
          end
      | None => None
      end
  end.

(** [result.match(...)]: the match at the leftmost position that has one. *)
Fixpoint find_version (s : string) : option (string * string * string) :=
  match version_here s with
  | Some groups => Some groups
  | None =>
      match s with
      | String _ s' => find_version s'
      | EmptyString => None
      end
  end.

Record CompatibilityDate := {
  compatDate : string;
  isFallback : bool;
}.

(** The [promise()] of [getWorkerdCompatibilityDate]: [latest] is the value
    of [workerdNpmInfo["dist-tags"].latest], or whatever was thrown on the
    way to it inside the [try]. *)
Definition workerdCompatibilityDate (latest : Result string) : CompatibilityDate :=
  match latest with
  | Return result =>
      match find_version result with
      | Some (year, month, date) =>
          {| compatDate := year ++ "-" ++ month ++ "-" ++ date;
             isFallback := false |}
      | None => {| compatDate := "2023-05-18"; isFallback := true |}
      end
  | Throw _ => {| compatDate := "2023-05-18"; isFallback := true |}
  end.

Definition getWorkerdCompatibilityDate (latest : Result string) : string :=
  compatDate (workerdCompatibilityDate latest).

(** A string of the shape YYYY-MM-DD. *)
Definition date_shaped (s : string) : Prop :=
  String.length s = 10 ∧ date_here s = true.

Definition types_directory : list string :=
  ["2021-11-03"; "index.d.ts"; "2023-07-01"; "experimental"; "2022-03-21";
   "README.md"].

(** * Properties *)

(** ** The endpoint handlers *)

Section Handlers.

Implicit Types (ws : JsObject.t) (n : string) (d : WorkerDefinition).

Lemma registry_own ws : registry ws = JsObject.own ws.
Proof. reflexivity. Qed.

Lemma registry_empty : registry JsObject.empty = ∅.
Proof. reflexivity. Qed.

(** An assignment under any key but [__proto__] is a map insertion. *)
Lemma registry_upsert ws n d :
  n ≠ "__proto__" → registry (upsert ws n d) = <[n := d]> (registry ws).
Proof.
  intros Hn. rewrite !registry_own. unfold upsert, handle, JsObject.set; simpl.
  destruct (JsObject.own ws !! n); [done |].
  destruct (String.eqb_spec n "__proto__"); [contradiction | done].
Qed.

(** Away from [__proto__] the second upsert wins and no other name moves. *)
Lemma upsert_twice_ordinary_name ws n d1 d2 :
  n ≠ "__proto__" →
  registry (upsert (upsert ws n d1) n d2) !! n = Some d2
  ∧ ∀ n', n' ≠ n →
      registry (upsert (upsert ws n d1) n d2) !! n' = registry ws !! n'.
Proof.
  intros Hn. rewrite !registry_upsert by done. split.
  - apply lookup_insert_eq.
  - intros n' Hne. by rewrite !lookup_insert_ne.
Qed.

(** On a registry without an own [__proto__] entry, the assignment under
    that key changes the prototype and leaves the entries as they were. *)
Lemma registry_upsert_proto ws d :
  registry ws !! "__proto__" = None →
  registry (upsert ws "__proto__" d) = registry ws.
Proof.
  rewrite !registry_own. intros Hnone.
  unfold upsert, handle, JsObject.set; simpl. by rewrite Hnone.
Qed.

(** Deleting a name removes its entry, present or not. *)
Lemma registry_delete ws n :
  registry (fst (handle ws (DELETE_worker n))) = delete n (registry ws).
Proof. reflexivity. Qed.

(** Deleting an absent name changes nothing. *)
Lemma registry_delete_absent ws n :
  registry ws !! n = None →
  registry (fst (handle ws (DELETE_worker n))) = registry ws.
Proof. intros Hnone. rewrite registry_delete. by apply delete_id. Qed.

Lemma registry_clear ws : registry (clear ws) = ∅.
Proof. reflexivity. Qed.

(** Whatever requests a server has served since it started, its registry
    has no entry under [__proto__]. *)
Lemma proto_name_never_listed (reqs : list Request) :
  registry (handle_all JsObject.empty reqs) !! "__proto__" = None.
Proof.
  unfold handle_all.
  assert (∀ ws, registry ws !! "__proto__" = None →
    registry (foldl (λ ws req, fst (handle ws req)) ws reqs) !! "__proto__" = None)
    as Hinv; [| by apply Hinv].
  induction reqs as [| req reqs IH]; intros ws Hws; [exact Hws |].
  simpl. apply IH. destruct req as [| n d | n |].
  - exact Hws.
  - change (registry (upsert ws n d) !! "__proto__" = None).
    destruct (decide (n = "__proto__")) as [-> | Hn].
    + by rewrite registry_upsert_proto.
    + rewrite registry_upsert by done. by rewrite lookup_insert_ne.
  - rewrite registry_delete.
    destruct (decide (n = "__proto__")) as [-> | Hn].
    + apply lookup_delete_eq.
    + by rewrite lookup_delete_ne.
  - reflexivity.
Qed.

(** [GET /workers] has no side effect. *)
Lemma get_workers_pure ws : fst (handle ws GET_workers) = ws.
Proof. reflexivity. Qed.

End Handlers.

(** C1, at the name [__proto__]: two upserts under that name on the registry
    of a fresh server leave [GET /workers] without an entry for it, whatever
    the two definitions are; the second definition has become the prototype
    of [workers] instead. *)
Theorem upsert_proto_name_not_stored (d1 d2 : WorkerDefinition) :
  let ws := upsert (upsert JsObject.empty "__proto__" d1) "__proto__" d2 in
  registry ws !! "__proto__" = None
  ∧ registry ws = ∅
  ∧ JsObject.proto ws = JsObject.ProtoOf d2.
Proof. simpl. repeat split; reflexivity. Qed.

(** ** The client operations *)

Section ClientFacts.

Implicit Types (e : JsError) (fetch : string → RequestInit → Result HttpResponse).

Lemma connection_lost_spec e :
  connection_lost e = true ↔ reset_or_refused e.
Proof.
  unfold connection_lost, includes, reset_or_refused, cause_code_of,
    cause_code_or_default.
  rewrite bool_decide_eq_true, !elem_of_cons, elem_of_nil.
  destruct (cause e) as [[[s|]]|]; simpl.
  - destruct (String.eqb_spec s "") as [-> | Hs].
    + split; [intros [H | [H | []]] | intros [H | H]]; discriminate H.
    + split; [intros [-> | [-> | []]] | intros [[= ->] | [= ->]]]; auto.
  - split; [intros [H | [H | []]] | intros [H | H]]; discriminate H.
  - split; [intros [H | [H | []]] | intros [H | H]]; discriminate H.
Qed.

Lemma connection_lost_false e :
  connection_lost e = false ↔ ¬ reset_or_refused e.
Proof.
  rewrite <- connection_lost_spec. destruct (connection_lost e); naive_solver.
Qed.

Lemma getRegisteredWorkers_reaches fetch ws :
  reaches fetch ws → getRegisteredWorkers fetch = Return (Some (registry ws)).
Proof. unfold reaches, getRegisteredWorkers. by intros ->. Qed.

End ClientFacts.

(** C5: the clear operation on a registry that holds at least one worker
    leaves the empty mapping, and a [list()] that then reaches the server
    returns the empty mapping. *)
Theorem clear_empties_registry (ws : JsObject.t)
    (fetch : string → RequestInit → Result HttpResponse) :
  1 ≤ size (registry ws) →
  registry (clear ws) = ∅
  ∧ (reaches fetch (clear ws) → getRegisteredWorkers fetch = Return (Some ∅)).
Proof.
  intros _. split; [apply registry_clear |].
  intros Hnet. rewrite (getRegisteredWorkers_reaches _ _ Hnet).
  by rewrite registry_clear.
Qed.

Lemma clear_empties_registry_witness :
  1 ≤ size (registry (upsert JsObject.empty "worker-a" worker_a))
  ∧ registry (clear (upsert JsObject.empty "worker-a" worker_a)) = ∅
  ∧ getRegisteredWorkers (answering (ok ∅)) = Return (Some ∅).
Proof.
  assert (1 ≤ size (registry (upsert JsObject.empty "worker-a" worker_a))) as Hsize.
  { rewrite registry_upsert by discriminate.
    rewrite registry_empty, insert_empty, map_size_singleton. lia. }
  destruct (clear_empties_registry _ (answering (ok ∅)) Hsize) as [Hclear Hlist].
  split; [exact Hsize | split; [exact Hclear |]].
  apply Hlist. reflexivity.
Defined.

(** C3: when the upsert request of [registerWorker], issued once the start
    call has returned, fails, whatever the error, the failure is logged (at debug level for connection reset or
    refused, at error level otherwise) and [registerWorker] returns without
    throwing; when the delete request of [unregisterWorker] fails, the error
    is swallowed exactly when its cause code is ECONNRESET or ECONNREFUSED,
    and thrown to the caller otherwise. *)
Theorem register_swallows_unregister_rethrows
    (fetch : string → RequestInit → Result HttpResponse)
    (name : string) (definition : WorkerDefinition)
    (probe bound : NetEvent) (p p' : Process) (e : JsError) :
  (startWorkerRegistry probe bound p = (Return (), p') →
   fetch (worker_url name) (POST definition) = Throw e →
   ∃ lvl,
     registerWorker fetch name definition probe bound p
     = (Return None, logger lvl failure_message e p')
     ∧ (lvl = debug ↔ reset_or_refused e))
  ∧ (fetch (worker_url name) DELETE = Throw e →
     (reset_or_refused e → unregisterWorker fetch name = Return ())
     ∧ (¬ reset_or_refused e → unregisterWorker fetch name = Throw e)).
Proof.
  split.
  - intros Hstart Hfetch. unfold registerWorker. rewrite Hstart, Hfetch.
    destruct (connection_lost e) eqn:Hlost; simpl.
    + exists debug. split; [done |]. by rewrite <- connection_lost_spec.
    + exists error. split; [done |].
      apply connection_lost_false in Hlost. split; [discriminate | contradiction].
  - intros Hfetch. unfold unregisterWorker. rewrite Hfetch. split.
    + intros Hlost%connection_lost_spec. by rewrite Hlost.
    + intros Hother%connection_lost_false. by rewrite Hother.
Qed.

Lemma register_swallows_unregister_rethrows_witness :
  (∃ lvl,
     registerWorker (failing (fetch_failed "EPIPE")) "worker-a" worker_a
       listening_event listening_event initial
     = (Return None,
        logger lvl failure_message (fetch_failed "EPIPE")
          (snd (startWorkerRegistry listening_event listening_event initial)))
     ∧ (lvl = debug ↔ reset_or_refused (fetch_failed "EPIPE")))
  ∧ unregisterWorker (failing (fetch_failed "EPIPE")) "worker-a"
    = Throw (fetch_failed "EPIPE").
Proof.
  destruct (register_swallows_unregister_rethrows
              (failing (fetch_failed "EPIPE")) "worker-a" worker_a
              listening_event listening_event initial
              (snd (startWorkerRegistry listening_event listening_event initial))
              (fetch_failed "EPIPE")) as [Hreg Hunreg].
  split.
  - apply Hreg; reflexivity.
  - apply Hunreg; [reflexivity |].
    intros [H | H]; discriminate H.
Defined.

(** C2: of the mapping that [list()] returns, [getBoundRegisteredWorkers]
    keeps exactly the entries whose name is the target of a declared service
    binding or the script name of a declared durable-object binding; when
    [list()] returns undefined it returns the empty mapping. *)
Theorem bound_workers_are_the_declared_entries
    (fetch : string → RequestInit → Result HttpResponse)
    (services : option (list Config.ServiceBinding))
    (durableObjects : option Config.DurableObjects) :
  (∀ ws, getRegisteredWorkers fetch = Return (Some ws) →
     ∃ bound,
       getBoundRegisteredWorkers fetch services durableObjects = Return bound
       ∧ ∀ k d, bound !! k = Some d
                ↔ ws !! k = Some d ∧ declared services durableObjects k)
  ∧ (getRegisteredWorkers fetch = Return None →
     getBoundRegisteredWorkers fetch services durableObjects = Return ∅).
Proof.
  split.
  - intros ws Hlist. unfold getBoundRegisteredWorkers. rewrite Hlist; simpl.
    eexists; split; [reflexivity |]. intros k d.
    rewrite <- elem_of_list_to_map.
    + rewrite list_elem_of_filter, elem_of_map_to_list; simpl.
      rewrite orb_True. unfold includes. rewrite !bool_decide_spec.
      rewrite !list_elem_of_fmap. unfold declared. split.
      * intros [[(s & Hs & Hin) | (b & Hb & Hin)] Hws]; (split; [exact Hws |]);
          [left; exists s | right; exists b]; split; auto.
      * intros [Hws [(s & Hin & Hs) | (b & Hin & Hb)]]; (split; [| exact Hws]);
          [left; exists s | right; exists b]; split; auto.
    + apply NoDup_fmap_fst.
      * intros k' d1 d2 [_ H1%elem_of_map_to_list]%list_elem_of_filter
          [_ H2%elem_of_map_to_list]%list_elem_of_filter. congruence.
      * apply NoDup_filter, NoDup_map_to_list.
  - intros Hlist. unfold getBoundRegisteredWorkers. rewrite Hlist; simpl.
    by rewrite map_to_list_empty.
Qed.

Lemma bound_workers_are_the_declared_entries_witness :
  (∃ bound,
     getBoundRegisteredWorkers (answering (ok three_workers)) (Some binds_b) (Some binds_c)
     = Return bound
     ∧ ∀ k d, bound !! k = Some d
              ↔ three_workers !! k = Some d ∧ declared (Some binds_b) (Some binds_c) k)
  ∧ getBoundRegisteredWorkers (failing (fetch_failed "ECONNREFUSED")) (Some binds_b) (Some binds_c)
    = Return ∅.
Proof.
  split.
  - apply (bound_workers_are_the_declared_entries
             (answering (ok three_workers)) (Some binds_b) (Some binds_c)).
    reflexivity.
  - apply (bound_workers_are_the_declared_entries
             (failing (fetch_failed "ECONNREFUSED")) (Some binds_b) (Some binds_c)).
    reflexivity.
Defined.

(** The query of the specification: entries a, b and c, a service binding to
    b and a durable-object binding to script c. *)
Example bound_workers_b_and_c :
  getBoundRegisteredWorkers (answering (ok three_workers)) (Some binds_b) (Some binds_c)
  = Return {[ "b" := worker_b; "c" := worker_a ]}.
Proof. vm_compute. reflexivity. Qed.

(** ** Start-up and the server handle *)

Section Lifecycle.

Implicit Types (p : Process) (probe bound : NetEvent) (sid : ServerId).

Lemma start_is_noop p probe bound available :
  isPortAvailable probe = Return available →
  is_null (server p) = false ∨ available = false →
  startWorkerRegistry probe bound p = (Return (), p).
Proof.
  intros Hprobe Hguard. unfold startWorkerRegistry. rewrite Hprobe.
  destruct Hguard as [-> | ->]; [by rewrite andb_false_r | done].
Qed.

Lemma start_probe_error p err bound :
  has_code err "EADDRINUSE" = false →
  startWorkerRegistry (error_event err) bound p = (Throw err, p).
Proof. intros Hcode. unfold startWorkerRegistry; simpl. by rewrite Hcode. Qed.

Lemma start_creates p bound :
  server p = None →
  ∃ p', startWorkerRegistry listening_event bound p = (Return (), p')
        ∧ server p' = Some (created p)
        ∧ apps p' !! created p = Some JsObject.empty
        ∧ created p' = S (created p)
        ∧ (bound = listening_event → live p' = created p :: live p).
Proof.
  intros Hnull. unfold startWorkerRegistry; simpl. rewrite Hnull; simpl.
  eexists; split; [reflexivity |]; simpl.
  repeat split; [apply lookup_insert_eq | by intros ->].
Qed.

Lemma unbind_length sid (l : list ServerId) : length (unbind sid l) ≤ length l.
Proof. apply length_filter. Qed.

Lemma on_close_keeps_one p sid : at_most_one_live p → at_most_one_live (on_close sid p).
Proof.
  unfold at_most_one_live; simpl. pose proof (unbind_length sid (live p)). lia.
Qed.

Lemma stop_keeps_one p : at_most_one_live p → at_most_one_live (stopWorkerRegistry p).
Proof.
  unfold stopWorkerRegistry, at_most_one_live.
  destruct (terminator p) as [sid |]; simpl; [| done].
  pose proof (unbind_length sid (live p)). lia.
Qed.

Lemma serve_keeps_one p req : at_most_one_live p → at_most_one_live (serve req p).
Proof.
  unfold serve. destruct (live p) as [| sid l] eqn:Hlive; [done |].
  destruct (apps p !! sid); [| done].
  unfold at_most_one_live; simpl. by rewrite Hlive.
Qed.

Lemma start_keeps_one p probe bound :
  binds_exclusively p probe = true →
  at_most_one_live p →
  at_most_one_live (snd (startWorkerRegistry probe bound p)).
Proof.
  intros Hprobe Hone. unfold startWorkerRegistry.
  destruct probe as [| err]; simpl.
  - destruct (is_null (server p)); [| done].
    unfold at_most_one_live; simpl. simpl in Hprobe.
    destruct (live p); [| discriminate].
    destruct bound; simpl; lia.
  - by destruct (has_code err "EADDRINUSE").
Qed.

Lemma step_keeps_one p ev :
  admissible p ev = true → at_most_one_live p → at_most_one_live (step p ev).
Proof.
  destruct ev as [probe bound | | sid | req]; simpl; intros Hadm Hone.
  - by apply start_keeps_one.
  - by apply stop_keeps_one.
  - by apply on_close_keeps_one.
  - by apply serve_keeps_one.
Qed.

Lemma history_keeps_one evs : ∀ p hist,
  at_most_one_live p →
  history p evs = Some hist →
  Forall at_most_one_live hist.
Proof.
  induction evs as [| ev evs IH]; intros p hist Hone; simpl.
  - intros [= <-]. by constructor.
  - destruct (admissible p ev) eqn:Hadm; [| discriminate].
    destruct (history (step p ev) evs) as [hist' |] eqn:Hrest; [| discriminate].
    intros [= <-]. constructor; [exact Hone |].
    apply (IH (step p ev)); [by apply step_keeps_one | exact Hrest].
Qed.

(** Every start that creates a server creates a new one. *)

Lemma step_ids_fresh p ev : ids_fresh p → ids_fresh (step p ev).
Proof.
  unfold ids_fresh. destruct ev as [probe bound | | sid' | req]; simpl; intros Hfresh.
  - unfold startWorkerRegistry.
    destruct (isPortAvailable probe) as [available |]; [| done].
    destruct (available && is_null (server p)); [| done]. simpl.
    intros sid Hsid. rewrite lookup_insert_ne by lia. apply Hfresh. lia.
  - unfold stopWorkerRegistry. by destruct (terminator p).
  - done.
  - unfold serve. destruct (live p) as [| s l]; [done |].
    destruct (apps p !! s) as [ws |] eqn:Hs; [| done]. simpl.
    intros sid Hsid. destruct (decide (s = sid)) as [-> | Hne].
    + rewrite Hfresh in Hs by done. discriminate.
    + rewrite lookup_insert_ne by done. by apply Hfresh.
Qed.

Lemma history_ids_fresh evs : ∀ p hist,
  ids_fresh p → history p evs = Some hist → Forall ids_fresh hist.
Proof.
  induction evs as [| ev evs IH]; intros p hist Hfresh; simpl.
  - intros [= <-]. by constructor.
  - destruct (admissible p ev); [| discriminate].
    destruct (history (step p ev) evs) as [hist' |] eqn:Hrest; [| discriminate].
    intros [= <-]. constructor; [exact Hfresh |].
    apply (IH (step p ev)); [by apply step_ids_fresh | exact Hrest].
Qed.

End Lifecycle.

(** The scenario of the specification on the server of one process: a
    registered worker is listed, and unregistering it leaves the empty
    registry. *)
Example register_then_unregister :
  let p1 := step running (request (POST_worker "worker-a" worker_a)) in
  served_registry p1 = Some {[ "worker-a" := worker_a ]}
  ∧ served_registry (step p1 (request (DELETE_worker "worker-a"))) = Some ∅.
Proof. split; vm_compute; reflexivity. Qed.

(** C4 as stated fails where it says that a start call made while the
    handle is set does not throw: the port is probed before the handle is
    looked at, so on a process whose server is up a probe that fails with
    EMFILE makes the start call throw. *)
Lemma start_with_handle_set_throws :
  server running = Some 0
  ∧ startWorkerRegistry (error_event (socket_error "EMFILE")) listening_event running
    = (Throw (socket_error "EMFILE"), running).
Proof. split; reflexivity. Qed.

(** C4, amended: along every run of start calls, stop calls, socket closes
    and requests that respects the bind semantics, at most one server of the
    process is live in every state; a start call whose probe does not fail
    with another error, made while the handle is set or while the port is
    found occupied, changes nothing and returns normally; the close of a
    server's socket resets the handle to null, after which a start call that
    finds the port free creates a new server with an empty registry; and a
    probe error other than EADDRINUSE is thrown by the start call, whether
    the handle is set or not. *)
Theorem single_authority :
  (∀ evs hist, history initial evs = Some hist → Forall at_most_one_live hist)
  ∧ (∀ p probe bound available,
       isPortAvailable probe = Return available →
       is_null (server p) = false ∨ available = false →
       startWorkerRegistry probe bound p = (Return (), p))
  ∧ (∀ p sid bound,
       server (on_close sid p) = None
       ∧ ∃ p', startWorkerRegistry listening_event bound (on_close sid p) = (Return (), p')
               ∧ server p' = Some (created p)
               ∧ apps p' !! created p = Some JsObject.empty
               ∧ created p' = S (created p))
  ∧ (∀ p err bound,
       has_code err "EADDRINUSE" = false →
       startWorkerRegistry (error_event err) bound p = (Throw err, p)).
Proof.
  split; [| split; [| split]].
  - intros evs hist. apply history_keeps_one. unfold at_most_one_live; simpl. lia.
  - apply start_is_noop.
  - intros p sid bound. split; [reflexivity |].
    destruct (start_creates (on_close sid p) bound eq_refl)
      as (p' & Hstart & Hserver & Happ & Hnext & _).
    exists p'. auto.
  - apply start_probe_error.
Qed.

Lemma single_authority_witness :
  (∃ hist, history initial sample_trace = Some hist ∧ Forall at_most_one_live hist)
  ∧ startWorkerRegistry listening_event listening_event running = (Return (), running)
  ∧ startWorkerRegistry (error_event (socket_error "EADDRINUSE")) listening_event initial
    = (Return (), initial)
  ∧ startWorkerRegistry (error_event (socket_error "EMFILE")) listening_event running
    = (Throw (socket_error "EMFILE"), running).
Proof.
  destruct single_authority as (Hone & Hnoop & _ & Hthrow).
  split; [| split; [| split]].
  - destruct (history initial sample_trace) as [hist |] eqn:Hhist.
    + exists hist. split; [reflexivity | exact (Hone _ _ Hhist)].
    + vm_compute in Hhist. discriminate Hhist.
  - apply (Hnoop running listening_event listening_event true); [reflexivity |].
    left. reflexivity.
  - apply (Hnoop initial (error_event (socket_error "EADDRINUSE")) listening_event false);
      [reflexivity |].
    right. reflexivity.
  - apply Hthrow. reflexivity.
Defined.

(** * Further properties *)

(** ** Handlers: removal, listing and composition *)

(** X1: an upsert under a name that has no entry, followed by the removal of
    that name, gives back the registry as it was. *)
Theorem upsert_then_delete_restores (ws : JsObject.t) (n : string)
    (d : WorkerDefinition) :
  registry ws !! n = None →
  registry (fst (handle (upsert ws n d) (DELETE_worker n))) = registry ws.
Proof.
  intros Hnone. rewrite registry_delete.
  destruct (decide (n = "__proto__")) as [-> | Hn].
  - rewrite registry_upsert_proto by done. by apply delete_id.
  - rewrite registry_upsert by done. by apply delete_insert_id.
Qed.

Lemma upsert_then_delete_restores_witness :
  registry (fst (handle (upsert JsObject.empty "worker-a" worker_a)
                   (DELETE_worker "worker-a")))
  = registry JsObject.empty.
Proof. apply upsert_then_delete_restores. reflexivity. Defined.

(** X2: removing a name leaves no entry under it and every other entry as
    it was, and removing it a second time changes nothing. *)
Theorem delete_worker_idempotent (ws : JsObject.t) (n : string) :
  let ws' := fst (handle ws (DELETE_worker n)) in
  registry ws' !! n = None
  ∧ (∀ n', n' ≠ n → registry ws' !! n' = registry ws !! n')
  ∧ fst (handle ws' (DELETE_worker n)) = ws'.
Proof.
  simpl. rewrite !registry_own; simpl. split; [apply lookup_delete_eq |].
  split; [intros n' Hne; by apply lookup_delete_ne |].
  unfold JsObject.del; simpl. f_equal. apply delete_id, lookup_delete_eq.
Qed.

(** X3: two upserts under different names give the same registry in either
    order. *)
Theorem upserts_commute (ws : JsObject.t) (n1 n2 : string)
    (d1 d2 : WorkerDefinition) :
  n1 ≠ n2 →
  registry (upsert (upsert ws n1 d1) n2 d2)
  = registry (upsert (upsert ws n2 d2) n1 d1).
Proof.
  intros Hne. rewrite !registry_own.
  unfold upsert, handle, JsObject.set; simpl.
  destruct (JsObject.own ws !! n1) as [v1 |] eqn:H1;
    destruct (JsObject.own ws !! n2) as [v2 |] eqn:H2; simpl;
    repeat (rewrite ?lookup_insert_ne, ?H1, ?H2 by done; simpl);
    destruct (String.eqb n1 "__proto__") eqn:E1;
    destruct (String.eqb n2 "__proto__") eqn:E2; simpl;
    repeat (rewrite ?lookup_insert_ne, ?H1, ?H2, ?E1, ?E2 by done; simpl);
    try reflexivity; by apply insert_insert_ne.
Qed.

Lemma upserts_commute_witness :
  registry (upsert (upsert JsObject.empty "a" worker_a) "b" worker_b)
  = registry (upsert (upsert JsObject.empty "b" worker_b) "a" worker_a).
Proof. apply upserts_commute. discriminate. Defined.

Lemma registry_after_request (ws : JsObject.t) (req : Request) (n : string)
    (d : WorkerDefinition) :
  registry (fst (handle ws req)) !! n = Some d →
  registry ws !! n = Some d ∨ req = POST_worker n d.
Proof.
  rewrite !registry_own. destruct req as [| n' d' | n' |]; simpl.
  - auto.
  - unfold JsObject.set.
    destruct (JsObject.own ws !! n') eqn:Hown; simpl.
    + destruct (decide (n' = n)) as [-> | Hne].
      * rewrite lookup_insert_eq. intros [= ->]. auto.
      * rewrite lookup_insert_ne by done. auto.
    + destruct (String.eqb n' "__proto__"); simpl; [auto |].
      destruct (decide (n' = n)) as [-> | Hne].
      * rewrite lookup_insert_eq. intros [= ->]. auto.
      * rewrite lookup_insert_ne by done. auto.
  - destruct (decide (n' = n)) as [-> | Hne].
    + by rewrite lookup_delete_eq.
    + rewrite lookup_delete_ne by done. auto.
  - by rewrite lookup_empty.
Qed.

(** X4: whatever requests a server has served since it started, every entry
    of its registry was posted under that name with that definition. *)
Theorem entries_were_posted (reqs : list Request) (n : string)
    (d : WorkerDefinition) :
  registry (handle_all JsObject.empty reqs) !! n = Some d →
  POST_worker n d ∈ reqs.
Proof.
  unfold handle_all.
  assert (∀ ws, registry (foldl (λ ws req, fst (handle ws req)) ws reqs) !! n = Some d →
    registry ws !! n = Some d ∨ POST_worker n d ∈ reqs) as Hgen.
  { induction reqs as [| req reqs IH]; intros ws; simpl; [auto |].
    intros [Hhere | Hlater]%IH.
    - apply registry_after_request in Hhere as [Hws | ->]; [auto |].
      right. apply list_elem_of_here.
    - right. by apply list_elem_of_further. }
  intros [Hempty | Hin]%Hgen; [| exact Hin].
  rewrite registry_empty, lookup_empty in Hempty. discriminate.
Qed.

Lemma entries_were_posted_witness :
  POST_worker "worker-a" worker_a
  ∈ [POST_worker "worker-b" worker_b; POST_worker "worker-a" worker_a; GET_workers].
Proof.
  apply (entries_were_posted
           [POST_worker "worker-b" worker_b; POST_worker "worker-a" worker_a; GET_workers]).
  vm_compute. reflexivity.
Defined.

(** ** Client: listing and discovery *)

(** X5: after an upsert under a name other than [__proto__], a [list()]
    that reaches the server returns a mapping that holds the definition under
    that name and every other entry as before. *)
Theorem list_after_upsert (fetch : string → RequestInit → Result HttpResponse)
    (ws : JsObject.t) (n : string) (d : WorkerDefinition) :
  n ≠ "__proto__" →
  reaches fetch (upsert ws n d) →
  ∃ listed,
    getRegisteredWorkers fetch = Return (Some listed)
    ∧ listed !! n = Some d
    ∧ ∀ n', n' ≠ n → listed !! n' = registry ws !! n'.
Proof.
  intros Hn Hnet. exists (registry (upsert ws n d)).
  split; [by apply getRegisteredWorkers_reaches |].
  rewrite registry_upsert by done. split.
  - apply lookup_insert_eq.
  - intros n' Hne. by rewrite lookup_insert_ne.
Qed.

Lemma list_after_upsert_witness :
  ∃ listed,
    getRegisteredWorkers (answering (ok {[ "worker-a" := worker_a ]}))
    = Return (Some listed)
    ∧ listed !! "worker-a" = Some worker_a
    ∧ ∀ n', n' ≠ "worker-a" → listed !! n' = registry JsObject.empty !! n'.
Proof.
  apply (list_after_upsert (answering (ok {[ "worker-a" := worker_a ]}))
           JsObject.empty "worker-a" worker_a).
  - discriminate.
  - reflexivity.
Defined.

(** X6: when the request of [getRegisteredWorkers] fails, or the body of
    the response cannot be read, the result is undefined if the cause code of
    the error is ECONNRESET or ECONNREFUSED, and the error is thrown to the
    caller otherwise. *)
Theorem list_failure (fetch : string → RequestInit → Result HttpResponse)
    (e : JsError) :
  (fetch workers_url GET = Throw e
   ∨ ∃ r, fetch workers_url GET = Return r ∧ json r = Throw e) →
  (reset_or_refused e → getRegisteredWorkers fetch = Return None)
  ∧ (¬ reset_or_refused e → getRegisteredWorkers fetch = Throw e).
Proof.
  intros Hfail.
  assert (bind (fetch workers_url GET) json = Throw e) as Hbind.
  { destruct Hfail as [-> | (r & -> & Hjson)]; [reflexivity | exact Hjson]. }
  unfold getRegisteredWorkers. rewrite Hbind. split.
  - intros Hlost%connection_lost_spec. by rewrite Hlost.
  - intros Hother%connection_lost_false. by rewrite Hother.
Qed.

Lemma list_failure_witness :
  getRegisteredWorkers (failing (fetch_failed "ECONNREFUSED")) = Return None
  ∧ getRegisteredWorkers (answering {| status := 200; json := Throw syntax_error |})
    = Throw syntax_error.
Proof.
  split.
  - apply (list_failure (failing (fetch_failed "ECONNREFUSED"))
             (fetch_failed "ECONNREFUSED")).
    + left. reflexivity.
    + right. reflexivity.
  - apply (list_failure (answering {| status := 200; json := Throw syntax_error |})
             syntax_error).
    + right. eexists. split; reflexivity.
    + intros [H | H]; discriminate H.
Defined.

(** X7: [getBoundRegisteredWorkers] throws exactly when its [list()] call
    throws, and then the same error. *)
Theorem bound_workers_throw_with_list
    (fetch : string → RequestInit → Result HttpResponse)
    (services : option (list Config.ServiceBinding))
    (durableObjects : option Config.DurableObjects) (e : JsError) :
  getBoundRegisteredWorkers fetch services durableObjects = Throw e
  ↔ getRegisteredWorkers fetch = Throw e.
Proof.
  unfold getBoundRegisteredWorkers.
  destruct (getRegisteredWorkers fetch) as [listed | e']; simpl.
  - split; intros H; inversion H.
  - split; intros [= ->]; reflexivity.
Qed.

Lemma filter_nothing {A} (P : A → Prop) `{∀ x, Decision (P x)} (l : list A) :
  Forall (λ x, ¬ P x) l → filter P l = [].
Proof.
  induction 1 as [| x l Hx _ IH]; [reflexivity |].
  by rewrite filter_cons_False.
Qed.

(** X8: when no service binding is declared and no durable-object binding
    names a script, nothing is bound: the result is the empty mapping,
    whatever [list()] returns. *)
Theorem no_binding_nothing_bound
    (fetch : string → RequestInit → Result HttpResponse)
    (services : option (list Config.ServiceBinding))
    (durableObjects : option Config.DurableObjects)
    (listed : option WorkerRegistry) :
  default [] services = [] →
  Forall (λ b, Config.script_name b = None)
    (Config.bindings (default {| Config.bindings := [] |} durableObjects)) →
  getRegisteredWorkers fetch = Return listed →
  getBoundRegisteredWorkers fetch services durableObjects = Return ∅.
Proof.
  intros Hservices Hscripts Hlist.
  unfold getBoundRegisteredWorkers. rewrite Hlist, Hservices; simpl.
  rewrite filter_nothing; [reflexivity |].
  apply Forall_forall. intros [k d] _. simpl.
  unfold includes. rewrite bool_decide_spec. intros Hin.
  apply list_elem_of_fmap in Hin as (b & Hb & Hin).
  rewrite Forall_forall in Hscripts. specialize (Hscripts b Hin). congruence.
Qed.

Lemma no_binding_nothing_bound_witness :
  getBoundRegisteredWorkers (answering (ok three_workers)) None
    (Some {| Config.bindings :=
               [{| Config.name := "OWN";
                   Config.class_name := "Own";
                   Config.script_name := None |}] |})
  = Return ∅.
Proof.
  apply (no_binding_nothing_bound _ _ _ (Some three_workers)).
  - reflexivity.
  - repeat constructor.
  - reflexivity.
Defined.

(** ** Lifecycle: what start and stop never do *)

Section LifecycleFacts.

Implicit Types (p : Process) (probe bound : NetEvent) (sid : ServerId).

Lemma start_throw_inv p probe bound e :
  fst (startWorkerRegistry probe bound p) = Throw e →
  probe = error_event e ∧ has_code e "EADDRINUSE" = false.
Proof.
  unfold startWorkerRegistry. destruct probe as [| err]; simpl.
  - destruct (is_null (server p)); discriminate.
  - destruct (has_code err "EADDRINUSE") eqn:Hcode; simpl.
    + discriminate.
    + intros [= <-]. auto.
Qed.

Lemma start_with_handle_keeps_state p probe bound :
  is_null (server p) = false → snd (startWorkerRegistry probe bound p) = p.
Proof.
  intros Hset. unfold startWorkerRegistry.
  destruct (isPortAvailable probe) as [available |]; [| reflexivity].
  by rewrite Hset, andb_false_r.
Qed.

Lemma elem_of_unbind sid sid' (l : list ServerId) :
  sid' ∈ unbind sid l → sid' ∈ l.
Proof. unfold unbind. rewrite list_elem_of_filter. tauto. Qed.

Lemma step_terminator_covers p ev :
  admissible p ev = true →
  terminator_covers_live p → terminator_covers_live (step p ev).
Proof.
  unfold terminator_covers_live.
  destruct ev as [probe bound | | sid | req]; simpl; intros Hadm Hcov.
  - unfold startWorkerRegistry. destruct probe as [| err]; simpl.
    + destruct (is_null (server p)); [| exact Hcov]. simpl.
      simpl in Hadm. destruct (live p) as [| s l]; [| discriminate].
      destruct bound; intros s' Hin.
      * apply list_elem_of_singleton in Hin. by subst.
      * by apply elem_of_nil in Hin.
    + by destruct (has_code err "EADDRINUSE").
  - unfold stopWorkerRegistry.
    destruct (terminator p) as [sid |] eqn:Hterm; simpl.
    + intros s' Hin%elem_of_unbind. rewrite Hterm. by apply Hcov.
    + intros s' Hin. rewrite Hterm. by apply Hcov.
  - intros s' Hin%elem_of_unbind. by apply Hcov.
  - unfold serve. destruct (live p) as [| s l] eqn:Hlive; [by rewrite Hlive |].
    destruct (apps p !! s); simpl; rewrite ?Hlive; exact Hcov.
Qed.

Lemma history_terminator_covers evs : ∀ p hist,
  terminator_covers_live p →
  history p evs = Some hist →
  Forall terminator_covers_live hist.
Proof.
  induction evs as [| ev evs IH]; intros p hist Hcov; simpl.
  - intros [= <-]. by constructor.
  - destruct (admissible p ev) eqn:Hadm; [| discriminate].
    destruct (history (step p ev) evs) as [hist' |] eqn:Hrest; [| discriminate].
    intros [= <-]. constructor; [exact Hcov |].
    apply (IH (step p ev)); [by apply step_terminator_covers | exact Hrest].
Qed.

Lemma reached_terminator_covers evs hist p :
  history initial evs = Some hist → p ∈ hist → terminator_covers_live p.
Proof.
  intros Hhist Hin.
  assert (Forall terminator_covers_live hist) as Hall.
  { apply (history_terminator_covers evs initial); [| exact Hhist].
    intros sid Hsid. by apply elem_of_nil in Hsid. }
  rewrite Forall_forall in Hall. by apply Hall.
Qed.

Lemma stop_unbinds_all p :
  terminator_covers_live p →
  live (stopWorkerRegistry p) = [] ∧ server (stopWorkerRegistry p) = None.
Proof.
  unfold terminator_covers_live. intros Hcov. split; [| reflexivity].
  unfold stopWorkerRegistry. destruct (terminator p) as [sid |] eqn:Hterm; simpl.
  - unfold unbind. apply filter_nothing, Forall_forall.
    intros s Hin Hne. specialize (Hcov s Hin). congruence.
  - destruct (live p) as [| s l] eqn:Hlive; [reflexivity |].
    specialize (Hcov s (list_elem_of_here _ _)). discriminate Hcov.
Qed.

End LifecycleFacts.

(** X9: [startWorkerRegistry] throws nothing but the error of the port
    probe, and only when its code is not EADDRINUSE; the process is then left
    as it was.  What [server.listen] reports is never thrown by the call. *)
Theorem start_throws_only_probe_errors (p : Process) (probe bound : NetEvent)
    (e : JsError) :
  fst (startWorkerRegistry probe bound p) = Throw e →
  probe = error_event e
  ∧ has_code e "EADDRINUSE" = false
  ∧ snd (startWorkerRegistry probe bound p) = p.
Proof.
  intros Hthrow. destruct (start_throw_inv _ _ _ _ Hthrow) as [-> Hcode].
  repeat split; [exact Hcode |].
  unfold startWorkerRegistry; simpl. by rewrite Hcode.
Qed.

Lemma start_throws_only_probe_errors_witness :
  error_event (socket_error "EACCES") = error_event (socket_error "EACCES")
  ∧ has_code (socket_error "EACCES") "EADDRINUSE" = false
  ∧ snd (startWorkerRegistry (error_event (socket_error "EACCES"))
           (error_event (socket_error "EPERM")) initial) = initial.
Proof.
  apply (start_throws_only_probe_errors initial
           (error_event (socket_error "EACCES"))
           (error_event (socket_error "EPERM")) (socket_error "EACCES")).
  reflexivity.
Defined.

(** X10: while the handle is set, start calls alone never change the
    process, whatever their probes report.  So a process that created its
    server but lost the bind to another process (the handle is set, nothing
    is live) starts no server again by calling start, even once the port is
    free. *)
Theorem handle_set_blocks_start (p : Process) (evs : list Event) :
  is_null (server p) = false →
  forallb is_start evs = true →
  foldl step p evs = p.
Proof.
  intros Hset. induction evs as [| ev evs IH]; [reflexivity |]; simpl.
  intros [Hev Hevs]%andb_true_iff.
  destruct ev as [probe bound | | |]; try discriminate. simpl.
  rewrite start_with_handle_keeps_state by exact Hset. by apply IH.
Qed.

Lemma handle_set_blocks_start_witness :
  server lost_race = Some 0
  ∧ live lost_race = []
  ∧ foldl step lost_race
      [call_start listening_event listening_event;
       call_start (error_event (socket_error "EMFILE")) listening_event;
       call_start listening_event listening_event]
    = lost_race.
Proof.
  split; [reflexivity | split; [reflexivity |]].
  apply handle_set_blocks_start; reflexivity.
Defined.

(** X11: in every state a process reaches, [stopWorkerRegistry] leaves no
    server of the process live and the handle null. *)
Theorem stop_leaves_nothing_live (evs : list Event) (hist : list Process)
    (p : Process) :
  history initial evs = Some hist →
  p ∈ hist →
  live (stopWorkerRegistry p) = [] ∧ server (stopWorkerRegistry p) = None.
Proof.
  intros Hhist Hin. apply stop_unbinds_all.
  by apply (reached_terminator_covers evs hist).
Qed.

Lemma stop_leaves_nothing_live_witness :
  live (stopWorkerRegistry running) = [] ∧ server (stopWorkerRegistry running) = None.
Proof.
  apply (stop_leaves_nothing_live
           [call_start listening_event listening_event] [initial; running]).
  - reflexivity.
  - apply list_elem_of_further, list_elem_of_here.
Defined.

(** X12: registrations do not survive a restart: from every state a process
    reaches, a stop followed by a start that binds the port serves the empty
    registry. *)
Theorem restart_loses_registrations (evs : list Event) (hist : list Process)
    (p : Process) :
  history initial evs = Some hist →
  p ∈ hist →
  served_registry
    (snd (startWorkerRegistry listening_event listening_event (stopWorkerRegistry p)))
  = Some ∅.
Proof.
  intros Hhist Hin.
  destruct (stop_unbinds_all p (reached_terminator_covers evs hist p Hhist Hin))
    as [Hlive Hserver].
  destruct (start_creates (stopWorkerRegistry p) listening_event Hserver)
    as (p' & Hstart & _ & Happ & _ & Hbound).
  rewrite Hstart. unfold served_registry, snd.
  by rewrite (Hbound eq_refl), Happ.
Qed.

Lemma restart_loses_registrations_witness :
  served_registry registered = Some {[ "worker-a" := worker_a ]}
  ∧ served_registry
      (snd (startWorkerRegistry listening_event listening_event
              (stopWorkerRegistry registered)))
    = Some ∅.
Proof.
  split; [vm_compute; reflexivity |].
  apply (restart_loses_registrations
           [call_start listening_event listening_event;
            request (POST_worker "worker-a" worker_a)]
           [initial; running; registered]).
  - reflexivity.
  - do 2 apply list_elem_of_further. apply list_elem_of_here.
Defined.

Lemma serve_all (reqs : list Request) : ∀ (p : Process) (sid : ServerId)
    (l : list ServerId) (ws : JsObject.t),
  live p = sid :: l →
  apps p !! sid = Some ws →
  apps (foldl step p (request <$> reqs)) !! sid = Some (handle_all ws reqs)
  ∧ server (foldl step p (request <$> reqs)) = server p
  ∧ live (foldl step p (request <$> reqs)) = live p.
Proof.
  unfold handle_all.
  induction reqs as [| req reqs IH]; intros p sid l ws Hlive Happ.
  - auto.
  - rewrite fmap_cons. cbn [foldl step].
    assert (live (serve req p) = sid :: l
            ∧ apps (serve req p) !! sid = Some (fst (handle ws req))
            ∧ server (serve req p) = server p) as (Hlive' & Happ' & Hserver').
    { unfold serve. rewrite Hlive, Happ; simpl.
      by rewrite lookup_insert_eq. }
    destruct (IH (serve req p) sid l (fst (handle ws req)) Hlive' Happ')
      as (Hreg & Hserver & Hl).
    rewrite Hreg, Hserver, Hl, Hserver', Hlive', Hlive. auto.
Qed.

(** X13: requests served by the bound server of a process act on its
    registry as the handlers do, one after the other, and change neither the
    handle nor which server is live. *)
Theorem requests_compose (p : Process) (sid : ServerId) (l : list ServerId)
    (ws : JsObject.t) (reqs : list Request) :
  live p = sid :: l →
  apps p !! sid = Some ws →
  served_registry (foldl step p (request <$> reqs))
  = Some (registry (handle_all ws reqs))
  ∧ server (foldl step p (request <$> reqs)) = server p
  ∧ live (foldl step p (request <$> reqs)) = live p.
Proof.
  intros Hlive Happ.
  destruct (serve_all reqs p sid l ws Hlive Happ) as (Hreg & Hserver & Hl).
  split; [| by split].
  unfold served_registry. by rewrite Hl, Hlive, Hreg.
Qed.

Lemma requests_compose_witness :
  served_registry
    (foldl step running
       (request <$> [POST_worker "a" worker_a; POST_worker "b" worker_b;
                     DELETE_worker "a"]))
  = Some (registry (handle_all JsObject.empty
                      [POST_worker "a" worker_a; POST_worker "b" worker_b;
                       DELETE_worker "a"])).
Proof.
  apply (requests_compose running 0 [] JsObject.empty
           [POST_worker "a" worker_a; POST_worker "b" worker_b; DELETE_worker "a"]);
    reflexivity.
Defined.

(** X14: [registerWorker] throws exactly when the port probe of its start
    call fails with a code other than EADDRINUSE, and then that error,
    whatever the network does. *)
Theorem register_throws_only_probe_errors
    (fetch : string → RequestInit → Result HttpResponse)
    (name : string) (definition : WorkerDefinition)
    (probe bound : NetEvent) (p : Process) (e : JsError) :
  fst (registerWorker fetch name definition probe bound p) = Throw e
  ↔ probe = error_event e ∧ has_code e "EADDRINUSE" = false.
Proof.
  unfold registerWorker. split.
  - destruct (startWorkerRegistry probe bound p) as [[[] | e'] p'] eqn:Hstart.
    + destruct (fetch (worker_url name) (POST definition)) as [r | e'']; simpl;
        [discriminate |].
      destruct (negb (connection_lost e'')); discriminate.
    + simpl. intros [= ->]. apply (start_throw_inv p probe bound).
      by rewrite Hstart.
  - intros [-> Hcode]. by rewrite start_probe_error.
Qed.

(** ** [retry] *)

Section Retry.

Context {T E : Type}.
Implicit Types (fn : nat → Attempt T E) (exitCondition : option (E → bool)).



Lemma retry_loop_skip exitCondition fn : ∀ k times calls error,
  (∀ j, j < k → ∃ e, fn (calls + j) = rejected e ∧ exits exitCondition e = false) →
  k ≤ times →
  retry_loop times exitCondition fn calls error
  = retry_loop (times - k) exitCondition fn (calls + k)
      (match k with
       | 0 => error
       | S k' => match fn (calls + k') with
                 | rejected e => Some e
                 | resolved _ => error
                 end
       end).
Proof.
  induction k as [| k IH]; intros times calls error Hfail Hk.
  - by rewrite Nat.sub_0_r, Nat.add_0_r.
  - destruct times as [| times]; [lia |]. simpl.
    destruct (Hfail 0 ltac:(lia)) as (e & He & Hexit).
    rewrite Nat.add_0_r in He. rewrite He, Hexit.
    rewrite (IH times (S calls) (Some e)); [| | lia].
    + replace (S calls + k) with (calls + S k) by lia. f_equal.
      destruct k as [| k]; simpl.
      * by rewrite Nat.add_0_r, He.
      * replace (S (calls + k)) with (calls + S k) by lia.
        destruct (Hfail (S k) ltac:(lia)) as (e' & -> & _). done.
    + intros j Hj. replace (S calls + j) with (calls + S j) by lia.
      apply Hfail. lia.
Qed.

End Retry.

(** X15: with no round to run ([times] zero or negative) [retry] throws
    [null] without calling [fn]. *)
Theorem retry_without_rounds {T E : Type} (times : Z)
    (exitCondition : option (E → bool)) (fn : nat → Attempt T E) :
  (times ≤ 0)%Z →
  retry times exitCondition fn = (rejected None, 0).
Proof.
  intros Htimes. unfold retry.
  replace (Z.to_nat times) with 0 by lia. reflexivity.
Qed.

Lemma retry_without_rounds_witness :
  retry 0 None third_time_lucky = (rejected None, 0).
Proof. apply retry_without_rounds. lia. Defined.


(** X17: when the first [k] calls reject with errors the exit condition
    lets pass, call [k] resolves and [k] is below [times], [retry] returns
    the value of call [k] after [k + 1] calls. *)
Theorem retry_first_success {T E : Type} (times : Z)
    (exitCondition : option (E → bool)) (fn : nat → Attempt T E)
    (k : nat) (v : T) :
  fails_before exitCondition fn k →
  fn k = resolved v →
  (Z.of_nat k < times)%Z →
  retry times exitCondition fn = (resolved v, S k).
Proof.
  intros Hfail Hv Hk. unfold retry.
  rewrite (retry_loop_skip exitCondition fn k) by (exact Hfail || lia).
  destruct (Z.to_nat times - k) as [| rest] eqn:Hrest; [lia |].
  simpl. by rewrite Hv.
Qed.

Lemma retry_first_success_witness :
  retry 3 None third_time_lucky = (resolved "done", 3).
Proof.
  apply (retry_first_success 3 None third_time_lucky 2 "done").
  - intros j Hj. exists j. split; [| reflexivity].
    unfold third_time_lucky. destruct j as [| [| j]]; [reflexivity | reflexivity | lia].
  - reflexivity.
  - lia.
Defined.

(** X18: when all of the [times] calls reject with errors the exit condition
    lets pass, [retry] throws the error of the last of them after exactly
    [times] calls. *)
Theorem retry_exhausted {T E : Type} (times : Z)
    (exitCondition : option (E → bool)) (fn : nat → Attempt T E)
    (m : nat) (e : E) :
  Z.to_nat times = S m →
  fails_before exitCondition fn (S m) →
  fn m = rejected e →
  retry times exitCondition fn = (rejected (Some e), S m).
Proof.
  intros Htimes Hfail He. unfold retry. rewrite Htimes.
  rewrite (retry_loop_skip exitCondition fn (S m)) by (exact Hfail || lia).
  rewrite Nat.sub_diag. simpl. by rewrite He.
Qed.

Lemma retry_exhausted_witness :
  retry 2 None third_time_lucky = (rejected (Some 1), 2).
Proof.
  apply (retry_exhausted 2 None third_time_lucky 1 1).
  - reflexivity.
  - intros j Hj. exists j. split; [| reflexivity].
    unfold third_time_lucky. destruct j as [| [| j]]; [reflexivity | reflexivity | lia].
  - reflexivity.
Defined.

(** X19: a rejection the exit condition accepts ends [retry] at once: it
    throws that error after that call, however many rounds are left. *)
Theorem retry_exit_condition {T E : Type} (times : Z)
    (exitCondition : option (E → bool)) (fn : nat → Attempt T E)
    (k : nat) (e : E) :
  fails_before exitCondition fn k →
  fn k = rejected e →
  exits exitCondition e = true →
  (Z.of_nat k < times)%Z →
  retry times exitCondition fn = (rejected (Some e), S k).
Proof.
  intros Hfail He Hexit Hk. unfold retry.
  rewrite (retry_loop_skip exitCondition fn k) by (exact Hfail || lia).
  destruct (Z.to_nat times - k) as [| rest] eqn:Hrest; [lia |].
  simpl. by rewrite He, Hexit.
Qed.

Lemma retry_exit_condition_witness :
  retry 5 (Some (λ e, e =? 1)) third_time_lucky = (rejected (Some 1), 2).
Proof.
  apply (retry_exit_condition 5 (Some (λ e, e =? 1)) third_time_lucky 1 1).
  - intros j Hj. exists j. assert (j = 0) as -> by lia. split; reflexivity.
  - reflexivity.
  - reflexivity.
  - lia.
Defined.

(** ** Dated entry points and the compatibility date *)

Example latest_of_types_directory :
  getLatestTypesEntrypoint (Return types_directory) = Some "2023-07-01".
Proof. vm_compute. reflexivity. Qed.

Example compat_date_of_a_release :
  workerdCompatibilityDate (Return "1.20230518.0")
  = {| compatDate := "2023-05-18"; isFallback := false |}.
Proof. vm_compute. reflexivity. Qed.

Lemma sorted_last_is_greatest (l : list string) (x : string) (rest : list string) :
  reverse (merge_sort String.le l) = x :: rest →
  x ∈ l ∧ ∀ y, y ∈ l → String.le y x.
Proof.
  intros Hrev.
  assert (merge_sort String.le l = (reverse rest ++ [x])%list) as Hsorted.
  { rewrite <- (reverse_involutive (merge_sort String.le l)), Hrev.
    apply reverse_cons. }
  pose proof (StronglySorted_merge_sort String.le l) as Hss.
  pose proof (merge_sort_Permutation String.le l) as Hperm.
  rewrite Hsorted in Hss, Hperm. split.
  - rewrite <- Hperm. apply elem_of_app. right. apply list_elem_of_here.
  - intros y Hy. rewrite <- Hperm in Hy.
    apply elem_of_app in Hy as [Hy | Hy%list_elem_of_singleton].
    + apply (StronglySorted_app_1_elem_of String.le (reverse rest) [x]);
        [exact Hss | exact Hy | apply list_elem_of_here].
    + subst y. reflexivity.
Qed.

(** X20: when [getLatestTypesEntrypoint] returns a name, it is an entry of
    the directory that contains a date YYYY-MM-DD, and no entry that
    contains a date comes after it in code-unit order. *)
Theorem latest_entrypoint_is_greatest (entrypoints : list string)
    (latest : string) :
  getLatestTypesEntrypoint (Return entrypoints) = Some latest →
  latest ∈ entrypoints
  ∧ contains_date latest = true
  ∧ ∀ other, other ∈ entrypoints → contains_date other = true →
             String.le other latest.
Proof.
  unfold getLatestTypesEntrypoint.
  destruct (reverse _) as [| x rest] eqn:Hrev; [discriminate |].
  intros [= ->].
  apply sorted_last_is_greatest in Hrev as [Hin Hmax].
  apply list_elem_of_filter in Hin as [Hdate Hin].
  split; [exact Hin |]. split; [by apply Is_true_true |].
  intros other Hother Hdated. apply Hmax.
  apply list_elem_of_filter. split; [by apply Is_true_true | exact Hother].
Qed.

Lemma latest_entrypoint_is_greatest_witness :
  "2023-07-01" ∈ types_directory
  ∧ contains_date "2023-07-01" = true
  ∧ ∀ other, other ∈ types_directory → contains_date other = true →
             String.le other "2023-07-01".
Proof.
  apply latest_entrypoint_is_greatest. vm_compute. reflexivity.
Defined.

(** X21: [getLatestTypesEntrypoint] returns null exactly when the directory
    cannot be read or none of its entries contains a date. *)
Theorem latest_entrypoint_null (readdirSync : Result (list string)) :
  getLatestTypesEntrypoint readdirSync = None
  ↔ (∃ e, readdirSync = Throw e)
    ∨ ∃ entrypoints, readdirSync = Return entrypoints
                     ∧ Forall (λ f, contains_date f = false) entrypoints.
Proof.
  unfold getLatestTypesEntrypoint.
  destruct readdirSync as [entrypoints | e]; [| split; eauto].
  destruct (reverse _) as [| x rest] eqn:Hrev.
  - split; [intros _ | done]. right. exists entrypoints. split; [done |].
    assert (merge_sort String.le
              (filter (λ filename, contains_date filename) entrypoints) = [])
      as Hsorted.
    { rewrite <- (reverse_involutive (merge_sort _ _)), Hrev. reflexivity. }
    pose proof (merge_sort_Permutation String.le
                  (filter (λ filename, contains_date filename) entrypoints)) as Hperm.
    rewrite Hsorted in Hperm. apply Permutation_nil in Hperm.
    apply Forall_forall. intros f Hf.
    destruct (contains_date f) eqn:Hdate; [| done].
    assert (f ∈ filter (λ filename, contains_date filename) entrypoints) as Hin.
    { apply list_elem_of_filter. split; [by apply Is_true_true | exact Hf]. }
    rewrite Hperm in Hin. by apply elem_of_nil in Hin.
  - split; [discriminate |].
    intros [[e [=]] | (entries & [= <-] & Hnone)].
    apply sorted_last_is_greatest in Hrev as [Hin _].
    apply list_elem_of_filter in Hin as [Hdate Hin].
    rewrite Forall_forall in Hnone. specialize (Hnone x Hin).
    apply Is_true_true in Hdate. congruence.
Qed.

Section Digits.

Implicit Types (s rest ds : string) (c : ascii).

Lemma take_digits_spec n : ∀ s ds rest,
  take_digits n s = Some (ds, rest) →
  s = (ds ++ rest)%string ∧ String.length ds = n ∧ all_digits ds = true.
Proof.
  induction n as [| n IH]; intros s ds rest; simpl.
  - intros [= <- <-]. auto.
  - destruct s as [| c s]; [discriminate |].
    destruct (is_digit c) eqn:Hc; [| discriminate].
    destruct (take_digits n s) as [[ds' rest'] |] eqn:Htake; [| discriminate].
    intros [= <- <-]. destruct (IH _ _ _ Htake) as (-> & <- & Hds).
    simpl. by rewrite Hc, Hds.
Qed.

Lemma take_digits_app n : ∀ ds rest,
  String.length ds = n → all_digits ds = true →
  take_digits n (ds ++ rest) = Some (ds, rest).
Proof.
  induction n as [| n IH]; intros [| c ds] rest; simpl; try discriminate.
  - reflexivity.
  - intros [= Hlen] [Hc Hds]%andb_true_iff. by rewrite Hc, (IH ds rest).
Qed.

Lemma digit_run_app ds : ∀ rest,
  all_digits ds = true →
  take_digits 1 rest = None →
  digit_run (ds ++ rest) = (ds, rest).
Proof.
  induction ds as [| c ds IH]; intros rest; simpl.
  - intros _. destruct rest as [| c rest]; [reflexivity |]. simpl.
    by destruct (is_digit c).
  - intros [Hc Hds]%andb_true_iff Hrest. by rewrite Hc, (IH rest).
Qed.

Lemma find_version_here s groups :
  version_here s = Some groups → find_version s = Some groups.
Proof. intros Hhere. destruct s; cbn [find_version]; by rewrite Hhere. Qed.

Lemma version_here_spec s year month date :
  version_here s = Some (year, month, date) →
  (String.length year = 4 ∧ all_digits year = true)
  ∧ (String.length month = 2 ∧ all_digits month = true)
  ∧ (String.length date = 2 ∧ all_digits date = true).
Proof.
  unfold version_here.
  destruct (digit_run s) as [[| c run] s0]; [discriminate |].
  destruct (take_char "." s0) as [s1 |]; [| discriminate].
  destruct (take_digits 4 s1) as [[y s2] |] eqn:Hy; [| discriminate].
  destruct (take_digits 2 s2) as [[m s3] |] eqn:Hm; [| discriminate].
  destruct (take_digits 2 s3) as [[d s4] |] eqn:Hd; [| discriminate].
  destruct (take_char "." s4) as [s5 |]; [| discriminate].
  destruct (take_digits 1 s5); [| discriminate].
  intros [= <- <- <-].
  apply take_digits_spec in Hy as (_ & ? & ?).
  apply take_digits_spec in Hm as (_ & ? & ?).
  apply take_digits_spec in Hd as (_ & ? & ?). auto.
Qed.

Lemma find_version_spec s : ∀ year month date,
  find_version s = Some (year, month, date) →
  (String.length year = 4 ∧ all_digits year = true)
  ∧ (String.length month = 2 ∧ all_digits month = true)
  ∧ (String.length date = 2 ∧ all_digits date = true).
Proof.
  induction s as [| c s IH]; intros year month date; cbn [find_version].
  - destruct (version_here "") as [groups |] eqn:Hhere; [| discriminate].
    intros [= ->]. by apply (version_here_spec "").
  - destruct (version_here (String c s)) as [groups |] eqn:Hhere.
    + intros [= ->]. by apply (version_here_spec (String c s)).
    + apply IH.
Qed.

Lemma string_length_app s rest :
  String.length (s ++ rest) = String.length s + String.length rest.
Proof. induction s as [| c s IH]; simpl; [done | by rewrite IH]. Qed.

Lemma take_char_cons c s : take_char c (String c s) = Some s.
Proof. unfold take_char. by rewrite Ascii.eqb_refl. Qed.

Lemma append_empty s : (s ++ EmptyString)%string = s.
Proof.
  induction s as [| c s IH]; [reflexivity |].
  change (String c (s ++ EmptyString) = String c s). by rewrite IH.
Qed.

Lemma dashed_is_date_shaped year month date :
  String.length year = 4 → all_digits year = true →
  String.length month = 2 → all_digits month = true →
  String.length date = 2 → all_digits date = true →
  date_shaped (year ++ "-" ++ month ++ "-" ++ date).
Proof.
  intros Hy Hyd Hm Hmd Hd Hdd. unfold date_shaped, date_here.
  split.
  - rewrite !string_length_app, Hy, Hm, Hd. reflexivity.
  - rewrite (take_digits_app 4 year) by done.
    change ("-" ++ month ++ "-" ++ date)%string
      with (String "-" (month ++ String "-" date)).
    rewrite take_char_cons, (take_digits_app 2 month) by done.
    rewrite take_char_cons, <- (append_empty date).
    by rewrite (take_digits_app 2 date).
Qed.

End Digits.

(** X22: for a version of the shape major.yyyymmdd.patch (major and patch
    non-empty runs of digits) the compatibility date is yyyy-mm-dd and is no
    fallback. *)
Theorem compat_date_of_version (major year month date patch : string) :
  major ≠ EmptyString → all_digits major = true →
  String.length year = 4 → all_digits year = true →
  String.length month = 2 → all_digits month = true →
  String.length date = 2 → all_digits date = true →
  patch ≠ EmptyString → all_digits patch = true →
  workerdCompatibilityDate
    (Return (major ++ "." ++ year ++ month ++ date ++ "." ++ patch))
  = {| compatDate := year ++ "-" ++ month ++ "-" ++ date; isFallback := false |}.
Proof.
  intros Hmajor Hmd Hy Hyd Hm Hmmd Hd Hdd Hpatch Hpd.
  unfold workerdCompatibilityDate.
  rewrite (find_version_here _ (year, month, date)); [reflexivity |].
  unfold version_here.
  change ("." ++ year ++ month ++ date ++ "." ++ patch)%string
    with (String "." (year ++ month ++ date ++ String "." patch)).
  rewrite digit_run_app by done.
  destruct major as [| c major]; [done |].
  rewrite take_char_cons.
  rewrite (take_digits_app 4 year), (take_digits_app 2 month),
    (take_digits_app 2 date) by done.
  rewrite take_char_cons.
  destruct patch as [| p patch]; [done |].
  apply andb_true_iff in Hpd as [Hp _]. simpl. by rewrite Hp.
Qed.

Lemma compat_date_of_version_witness :
  workerdCompatibilityDate (Return ("1" ++ "." ++ "2023" ++ "07" ++ "24" ++ "." ++ "0"))
  = {| compatDate := "2023" ++ "-" ++ "07" ++ "-" ++ "24"; isFallback := false |}.
Proof. apply compat_date_of_version; (discriminate || reflexivity). Defined.

(** X23: whatever the registry answers, and also when the look-up throws,
    the compatibility date returned has the shape YYYY-MM-DD. *)
Theorem compat_date_is_date_shaped (latest : Result string) :
  date_shaped (getWorkerdCompatibilityDate latest).
Proof.
  unfold getWorkerdCompatibilityDate, workerdCompatibilityDate.
  destruct latest as [result | e]; [| split; reflexivity].
  destruct (find_version result) as [[[year month] date] |] eqn:Hfind;
    [| split; reflexivity].
  apply find_version_spec in Hfind as ((? & ?) & (? & ?) & (? & ?)).
  by apply dashed_is_date_shaped.
Qed.
